(** * ClearHear: the response parser of [analyze_audio_file] (audio.py)

    The only function of the repository uploads an audio file to a
    generative model, sends a fixed prompt and splits the answer into two
    sections delimited by literal markers.  This development embeds that
    function: Python strings as lists of code points, the two [re.search]
    calls as a small backtracking matcher that follows the priorities of
    Python's [re] module, and the network collaborator as an explicit
    oracle with a log of the calls made to it. *)

From Stdlib Require Import List NArith Ascii String Bool Arith Lia.
Import ListNotations.

Set Implicit Arguments.

(** ** Python strings *)

Module PyStr.

(** A Python [str] is a sequence of Unicode code points. *)
Definition char := N.
Definition str := list char.

(** An ASCII literal of the source, as a [str]. *)
Definition py (s : string) : str := map N_of_ascii (list_ascii_of_string s).

(** [Py_UNICODE_ISSPACE]: the test behind both [str.strip()] and the
    class [\s] of a [str] pattern. *)
Definition isspace (c : char) : bool :=
  (((9 <=? c) && (c <=? 13)) || ((28 <=? c) && (c <=? 32))
   || (c =? 133) || (c =? 160) || (c =? 5760)
   || ((8192 <=? c) && (c <=? 8202))
   || (c =? 8232) || (c =? 8233) || (c =? 8239) || (c =? 8287)
   || (c =? 12288))%N.

Fixpoint lstrip (s : str) : str :=
  match s with
  | [] => []
  | c :: s' => if isspace c then lstrip s' else s
  end.

Fixpoint rstrip (s : str) : str :=
  match s with
  | [] => []
  | c :: s' =>
      match rstrip s' with
      | [] => if isspace c then [] else [c]
      | r => c :: r
      end
  end.

(** [s.strip()] *)
Definition strip (s : str) : str := rstrip (lstrip s).

Definition str_eqb (a b : str) : bool :=
  if list_eq_dec N.eq_dec a b then true else false.

(** [s.startswith(m)], returning what follows [m]. *)
Fixpoint eat (m s : str) : option str :=
  match m, s with
  | [], _ => Some s
  | _ :: _, [] => None
  | a :: m', c :: s' => if (a =? c)%N then eat m' s' else None
  end.

(** [m in s] *)
Fixpoint contains (m s : str) : bool :=
  match eat m s with
  | Some _ => true
  | None => match s with [] => false | _ :: s' => contains m s' end
  end.

(** Truth value of an optional string: [None] and [""] are falsy. *)
Definition truthy (v : option str) : bool :=
  match v with
  | Some (_ :: _) => true
  | _ => false
  end.

(** [v or d] *)
Definition py_or (v : option str) (d : str) : str :=
  match v with
  | Some (c :: s) => c :: s
  | _ => d
  end.

End PyStr.
Import PyStr.

(** ** The fragment of [re] used by the two patterns *)

Module Re.

(** Character classes: [\s] and [.]. *)
Inductive cclass := Space | Dot.

Inductive greed := Greedy | Lazy.

(** Pattern items: a literal run, a starred class (greedy or lazy), and
    the capturing group around a starred class. *)
Inductive node :=
| Lit (l : str)
| Star (g : greed) (a : cclass)
| GroupStar (g : greed) (a : cclass).

Definition pattern := list node.

(** A match object, reduced to what the caller reads: [group(1)],
    which is [None] when the group took no part in the match. *)
Record Match := { group1 : option str }.

(** With [re.DOTALL] the dot matches every character, a newline too. *)
Definition test (dotall : bool) (a : cclass) (c : char) : bool :=
  match a with
  | Space => isspace c
  | Dot => dotall || negb (c =? 10)%N
  end.

Definition orelse (a b : option Match) : option Match :=
  match a with
  | Some m => Some m
  | None => b
  end.

(** The four loops of a starred class [ok], each followed by the rest of
    the pattern [k].  A greedy star first takes one more character and
    falls back to [k]; a lazy star first tries [k] and only then takes one
    more character.  The group loops also collect what they consumed. *)
Section Loops.

Variable ok : char -> bool.
Variable k : str -> option str -> option Match.

Fixpoint greedy_star (s : str) (g : option str) : option Match :=
  match s with
  | c :: s' =>
      if ok c then orelse (greedy_star s' g) (k s g) else k s g
  | [] => k s g
  end.

Fixpoint lazy_star (s : str) (g : option str) : option Match :=
  orelse (k s g)
         match s with
         | c :: s' => if ok c then lazy_star s' g else None
         | [] => None
         end.

Fixpoint greedy_group (acc s : str) : option Match :=
  match s with
  | c :: s' =>
      if ok c
      then orelse (greedy_group (c :: acc) s') (k s (Some (rev acc)))
      else k s (Some (rev acc))
  | [] => k s (Some (rev acc))
  end.

Fixpoint lazy_group (acc s : str) : option Match :=
  orelse (k s (Some (rev acc)))
         match s with
         | c :: s' => if ok c then lazy_group (c :: acc) s' else None
         | [] => None
         end.

End Loops.

(** Backtracking match of [p] at the head of [s]; the first success in
    priority order is the match. *)
Fixpoint exec (dotall : bool) (p : pattern) : str -> option str -> option Match :=
  match p with
  | [] => fun _ g => Some {| group1 := g |}
  | Lit l :: p' =>
      fun s g =>
        match eat l s with
        | Some s' => exec dotall p' s' g
        | None => None
        end
  | Star Greedy a :: p' => greedy_star (test dotall a) (exec dotall p')
  | Star Lazy a :: p' => lazy_star (test dotall a) (exec dotall p')
  | GroupStar Greedy a :: p' =>
      fun s _ => greedy_group (test dotall a) (exec dotall p') [] s
  | GroupStar Lazy a :: p' =>
      fun s _ => lazy_group (test dotall a) (exec dotall p') [] s
  end.

(** [re.search]: the match at the leftmost position that has one. *)
Fixpoint search (dotall : bool) (p : pattern) (s : str) : option Match :=
  orelse (exec dotall p s None)
         match s with
         | [] => None
         | _ :: s' => search dotall p s'
         end.

Definition DOTALL := true.

End Re.
Import Re.

(** ** The markers and the two patterns (audio.py, 132-141) *)

Definition RAW_START : str := py "<<<RAW_TRANSCRIPT_START>>>".
Definition RAW_END : str := py "<<<RAW_TRANSCRIPT_END>>>".
Definition NOTES_START : str := py "<<<ACCESSIBLE_NOTES_START>>>".
Definition NOTES_END : str := py "<<<ACCESSIBLE_NOTES_END>>>".

(** [START\s*(.*?)\s*END] *)
Definition section_re (start_marker end_marker : str) : pattern :=
  [Lit start_marker; Star Greedy Space; GroupStar Lazy Dot;
   Star Greedy Space; Lit end_marker].

Definition raw_re : pattern := section_re RAW_START RAW_END.
Definition notes_re : pattern := section_re NOTES_START NOTES_END.

Definition nl : str := [10%N].

Definition NOTICE : str :=
  py "Accessible notes could not be parsed from the model response." ++ nl ++ nl.


(** ** Exceptions and the result record *)

Inductive exn :=
| RuntimeError (msg : str)
| AttributeError (msg : str)
| ExternalError (what : str).

Inductive outcome (A : Type) :=
| Return (a : A)
| Raise (e : exn).
Arguments Return {A} a.
Arguments Raise {A} e.

Definition obind {A B : Type} (c : outcome A) (k : A -> outcome B) : outcome B :=
  match c with
  | Return a => k a
  | Raise e => Raise e
  end.

Notation "x <-- c ;; k" := (obind c (fun x => k))
  (at level 61, c at next level, right associativity).

(** The dictionary returned by [analyze_audio_file]. *)
Record result := {
  raw_transcript : str;
  accessible_transcript : str
}.

(** ** Splitting the response (audio.py, 126-155) *)

(** [m.group(1).strip()]: [group(1)] is [None] for a group that took no
    part in the match, and [None] has no [strip]. *)
Definition group1_strip (m : Match) : outcome str :=
  match group1 m with
  | Some g => Return (strip g)
  | None => Raise (AttributeError (py "'NoneType' object has no attribute 'strip'"))
  end.

Definition full_text_of (response_text : option str) : str :=
  strip (py_or response_text []).

Definition raw_match_of (full_text : str) : option Match :=
  search DOTALL raw_re full_text.

Definition notes_match_of (full_text : str) : option Match :=
  search DOTALL notes_re full_text.

(** The tail of [analyze_audio_file], from [response.text] to the result. *)
Definition extract (response_text : option str) : outcome result :=
  let full_text := full_text_of response_text in
  let raw_match := raw_match_of full_text in
  let notes_match := notes_match_of full_text in
  raw_transcript <--
    match raw_match with
    | Some m => group1_strip m
    | None => Return full_text
    end ;;
  accessible_notes <--
    match notes_match with
    | Some m => group1_strip m
    | None => Return (NOTICE ++ full_text)
    end ;;
  Return {| raw_transcript := raw_transcript;
            accessible_transcript := accessible_notes |}.

(** ** The prompt (audio.py, 27-119) *)

Definition dq : str := [34%N].
Definition en_dash : str := [8211%N].
Definition em_dash : str := [8212%N].

Definition prompt_lines : list str :=
  [
   py "You are an expert academic note-taker assisting a hard-of-hearing student in their second year of university.";
   [];
   py "You are given an audio recording of a conversation or lecture.";
   [];
   py "Your job is to produce TWO separate Markdown text blocks in a SINGLE response:";
   [];
   py "1. A readable raw transcript.";
   py "2. Detailed accessible notes.";
   [];
   py "You MUST return them in EXACTLY this template (do NOT add or remove markers):";
   [];
   py "<<<RAW_TRANSCRIPT_START>>>";
   py "[Put the complete raw transcript here, in Markdown. Use headings and paragraphs, but DO NOT summarize.]";
   py "<<<RAW_TRANSCRIPT_END>>>";
   [];
   py "<<<ACCESSIBLE_NOTES_START>>>";
   py "[Put the detailed accessible notes here, in Markdown, using the structure described below.]";
   py "<<<ACCESSIBLE_NOTES_END>>>";
   [];
   py "------------------------";
   py "DETAILS FOR EACH PART:";
   py "------------------------";
   [];
   py "RAW TRANSCRIPT";
   py "- A faithful written transcript of what was said.";
   py "- Use clear paragraphs, punctuation, and sentence boundaries.";
   py "- You may add LIGHT structure (e.g., " ++ dq ++ py "## Introduction" ++ dq ++ py ", " ++ dq ++ py "## Example" ++ dq ++ py ") if it helps readability.";
   py "- Clean up obvious filler words (" ++ dq ++ py "um" ++ dq ++ py ", " ++ dq ++ py "uh" ++ dq ++ py ", repeated fragments) when they don't add meaning.";
   py "- Keep the wording, nuance, and technical vocabulary as close to the original as possible.";
   py "- Do NOT summarize or compress the content; this is a transcript, not notes.";
   py "- Avoid a giant blob: break into logical paragraphs.";
   [];
   py "ACCESSIBLE NOTES";
   py "- High-quality, detailed lecture notes aimed at a second-year university student.";
   py "- Do NOT oversimplify concepts; keep key terminology and nuance.";
   py "- The notes MUST be formatted in a neat, visually organized way for accessibility:";
   py "    * clear headings";
   py "    * short paragraphs";
   py "    * bullet points";
   py "    * consistent tag formatting";
   py "- The notes MUST be DETAILED and THOROUGH enough that the student could study for an exam";
   py "  using only these notes.";
   [];
   py "Use this overall Markdown structure INSIDE <<<ACCESSIBLE_NOTES_START>>> ... <<<ACCESSIBLE_NOTES_END>>>:";
   [];
   py "# Accessible Notes " ++ en_dash ++ py " [Insert Topic/Title]";
   [];
   py "## Overview";
   py "- 1" ++ en_dash ++ py "3 bullets describing the main themes or goals of the lecture/conversation.";
   [];
   py "## Main Notes";
   [];
   py "### [Section Name]";
   py "- [T=MM:SS" ++ en_dash ++ py "MM:SS] [Speaker: ROLE] [TONE: tone_word] " ++ dq ++ py "SHORT QUOTE OR PHRASE" ++ dq ++ py " " ++ em_dash ++ py " Your explanation of what this means and why it matters.";
   py "- [T=MM:SS" ++ en_dash ++ py "MM:SS] [Speaker: ROLE] [TONE: tone_word] " ++ dq ++ py "Another important line..." ++ dq ++ py " " ++ em_dash ++ py " Deeper explanation, context, or example.";
   py "- Add as many bullets as needed to capture the full detail of that section.";
   [];
   py "Requirements for each bullet:";
   py "- Include approximate timestamps in [T=MM:SS" ++ en_dash ++ py "MM:SS] format.";
   py "- Include the speaker tag: Professor, Student, Guest, TA, Interviewer, Interviewee, etc.";
   py "- Include a tone tag when useful:";
   py "    calm, friendly, excited, urgent, frustrated, angry, sad, joking, uncertain, neutral.";
   py "- Include a short direct quote in quotation marks (" ++ dq ++ py "..." ++ dq ++ py ") that reflects the speaker's wording.";
   py "- After the quote, use an em dash (" ++ em_dash ++ py ") and write a clear explanation in complete sentences";
   py "  at a second-year university level.";
   py "- Capture:";
   py "    * main claims or arguments";
   py "    * definitions";
   py "    * important examples and applications";
   py "    * clarifications and distinctions";
   py "    * questions or objections raised by students";
   py "    * instructions (deadlines, assignments) if present";
   [];
   py "#### Key Definitions (within a section if relevant)";
   py "- When the audio contains definitions of important terms, clearly mark them using:";
   py "    - [T=MM:SS" ++ en_dash ++ py "MM:SS] [Speaker: ROLE] [TONE: tone_word] " ++ dq ++ py "QUOTE" ++ dq ++ py " " ++ em_dash ++ py " **Definition " ++ en_dash ++ py " TERM:** explanation here...";
   [];
   py "At the end of EACH section, add:";
   [];
   py "**Section Summary**";
   py "- 2" ++ en_dash ++ py "4 short bullets summarizing the most important takeaways of that section, written in your own words (not just quotes).";
   [];
   py "## Overall Summary";
   py "- At the very end of the notes, provide a short summary (3" ++ en_dash ++ py "6 bullets) of the entire lecture,";
   py "  as if the student is reviewing before an exam.";
   [];
   py "VERY IMPORTANT:";
   py "- Do NOT output JSON.";
   py "- Do NOT output anything before <<<RAW_TRANSCRIPT_START>>>.";
   py "- Do NOT output anything after <<<ACCESSIBLE_NOTES_END>>>.";
   py "- Do NOT change the marker text."
  ].

(** The triple-quoted literal opens with a newline and every line ends
    with one; [.strip()] removes the outer ones. *)
Definition prompt : str :=
  strip (nl ++ List.concat (map (fun l => l ++ nl) prompt_lines)).

(** ** The upstream collaborator and the whole function (audio.py, 5-155) *)

(** What leaves the process, in program order. *)
Inductive call :=
| NewClient (api_key : str)
| Print (line : str)
| FilesUpload (file : str)
| GenerateContent (model : str) (prompt_sent : str).

Section Upstream.

(** The handle of an uploaded file is opaque to the caller. *)
Variable File : Type.

(** The service: each call answers or raises. *)
Record Gemini := {
  new_client : str -> outcome unit;
  files_upload : str -> outcome File;
  generate_content : str -> str -> File -> outcome (option str)
}.

Variable G : Gemini.

(** A computation logs its calls and ends with a value or an exception. *)
Definition io (A : Type) := list call -> list call * outcome A.

Definition ret {A : Type} (a : A) : io A := fun log => (log, Return a).

Definition throw {A : Type} (e : exn) : io A := fun log => (log, Raise e).

Definition bind {A B : Type} (c : io A) (k : A -> io B) : io B :=
  fun log =>
    match c log with
    | (log', Return a) => k a log'
    | (log', Raise e) => (log', Raise e)
    end.

Definition perform {A : Type} (c : call) (answer : outcome A) : io A :=
  fun log => (log ++ [c], answer).

Definition lift {A : Type} (o : outcome A) : io A := fun log => (log, o).

Notation "x <- c ; k" := (bind c (fun x => k))
  (at level 61, c at next level, right associativity).

Definition api_key_message : str :=
  py "No Gemini API key provided to analyze_audio_file().".

Definition analyze_audio_file (audio_path : str) (api_key : option str)
  : io result :=
  if negb (truthy api_key) then throw (RuntimeError api_key_message)
  else
    _ <- perform (NewClient (py_or api_key []))
                 (new_client G (py_or api_key [])) ;
    _ <- perform (Print (py "Uploading audio to Gemini: " ++ audio_path))
                 (Return tt) ;
    uploaded_file <- perform (FilesUpload audio_path)
                             (files_upload G audio_path) ;
    response_text <- perform (GenerateContent (py "gemini-2.0-flash") prompt)
                             (generate_content G (py "gemini-2.0-flash")
                                               prompt uploaded_file) ;
    lift (extract response_text).

End Upstream.

(** ** Vocabulary of the statements *)

(** [m] occurs in [s] as a substring. *)
Definition occurs (m s : str) : Prop := exists u v, s = u ++ m ++ v.

(** [s] holds a start marker followed, later, by the end marker. *)
Definition has_pair (start_marker end_marker s : str) : Prop :=
  exists u a v, s = u ++ start_marker ++ a ++ end_marker ++ v.

(** The text after the first occurrence of [m] in [s]. *)
Fixpoint after_first (m s : str) : option str :=
  match eat m s with
  | Some r => Some r
  | None => match s with [] => None | _ :: s' => after_first m s' end
  end.

(** Executable [has_pair]: the end marker occurs after the first start
    marker. *)
Definition has_pairb (start_marker end_marker s : str) : bool :=
  match after_first start_marker s with
  | Some r => contains end_marker r
  | None => false
  end.

Definition all_space (s : str) : Prop := Forall (fun c => isspace c = true) s.

(** No proper non-empty prefix of [m] is also a suffix of [m]. *)
Definition border_free (m : str) : Prop :=
  forall x y z, m = x ++ y -> m = y ++ z -> x <> [] -> y = [].

Definition border_freeb (m : str) : bool :=
  forallb (fun k => negb (str_eqb (firstn k m) (skipn (List.length m - k) m)))
          (seq 1 (List.length m - 1)).

(** A marker starts and ends with a visible character. *)
Definition solid (m : str) : Prop :=
  (exists c m', m = c :: m' /\ isspace c = false) /\
  (exists m' c, m = m' ++ [c] /\ isspace c = false).

Definition scenario : str :=
  RAW_START ++ nl ++ py "Hello" ++ nl ++ RAW_END ++ nl ++ nl ++
  NOTES_START ++ nl ++ py "World" ++ nl ++ NOTES_END.

(** The content the lazy group settles on when the text after the start
    marker and its blanks is [s]: the shortest prefix of [s] followed by
    blanks and the end marker. *)
Fixpoint first_end (end_marker s : str) : option str :=
  match eat end_marker (lstrip s) with
  | Some _ => Some []
  | None =>
      match s with
      | [] => None
      | c :: s' => option_map (cons c) (first_end end_marker s')
      end
  end.

(** One field of the result: the stripped group of a match, or the
    fallback when the search finds nothing (audio.py, 143-151). *)
Definition field_value (p : pattern) (fallback full_text : str) : outcome str :=
  match search DOTALL p full_text with
  | Some m => group1_strip m
  | None => Return fallback
  end.

(** Decidable version of the three facts used about a marker. *)
Definition markerb (m : str) : bool :=
  match m with
  | a :: _ => negb (isspace a)
  | [] => false
  end && negb (isspace (last m 0%N)) && border_freeb m.

(** The text before the first occurrence of [m] in [s]. *)
Fixpoint before_first (m s : str) : option str :=
  match eat m s with
  | Some _ => Some []
  | None =>
      match s with
      | [] => None
      | c :: s' => option_map (cons c) (before_first m s')
      end
  end.

(** One field read without a pattern: cut the text after the first start
    marker, cut what follows before the first end marker, strip; the
    fallback when either cut fails.  The searches of [extract] are
    compared with this reading. *)
Definition split_field (start_marker end_marker fallback full_text : str)
  : str :=
  match after_first start_marker full_text with
  | Some r =>
      match before_first end_marker r with
      | Some a => strip a
      | None => fallback
      end
  | None => fallback
  end.

(** The calls of a complete run of [analyze_audio_file], in program
    order (audio.py, 21-24 and 121-124). *)
Definition run_calls (api_key audio_path : str) : list call :=
  [NewClient api_key;
   Print (py "Uploading audio to Gemini: " ++ audio_path);
   FilesUpload audio_path;
   GenerateContent (py "gemini-2.0-flash") prompt].



(** * Properties *)

(** ** Stripping *)

Lemma all_space_app (x y : str) :
  all_space (x ++ y) <-> all_space x /\ all_space y.
Proof. unfold all_space. apply Forall_app. Qed.

Lemma lstrip_blank (w s : str) : all_space w -> lstrip (w ++ s) = lstrip s.
Proof.
  induction 1 as [|c w Hc _ IH]; simpl; [reflexivity|].
  now rewrite Hc.
Qed.

Lemma lstrip_split (s : str) : exists w, s = w ++ lstrip s /\ all_space w.
Proof.
  induction s as [|c s [w [E W]]]; simpl.
  - exists []. split; [reflexivity | constructor].
  - destruct (isspace c) eqn:Hc.
    + exists (c :: w). split; [simpl; congruence | now constructor].
    + exists []. split; [reflexivity | constructor].
Qed.

Lemma lstrip_head (s : str) :
  lstrip s = [] \/ exists c r, lstrip s = c :: r /\ isspace c = false.
Proof.
  induction s as [|c s IH]; simpl; [now left|].
  destruct (isspace c) eqn:Hc; [exact IH|].
  right. now exists c, s.
Qed.

Lemma lstrip_app_visible (x : str) (c : char) (y : str) :
  isspace c = false -> lstrip (x ++ c :: y) = lstrip x ++ c :: y.
Proof.
  intros Hc. induction x as [|d x IH]; simpl.
  - now rewrite Hc.
  - destruct (isspace d); [exact IH | reflexivity].
Qed.

Lemma rstrip_nil_iff (s : str) : rstrip s = [] <-> all_space s.
Proof.
  induction s as [|c s IH]; simpl.
  - split; [constructor | reflexivity].
  - destruct (rstrip s) as [|d r] eqn:E.
    + destruct (isspace c) eqn:Hc; split; intros H; try reflexivity.
      * constructor; [exact Hc | now apply IH].
      * discriminate.
      * inversion H; congruence.
    + split; [discriminate|]. intros H. inversion H as [|? ? _ H']; subst.
      apply IH in H'. discriminate.
Qed.

Lemma rstrip_cons (c : char) (s : str) :
  rstrip (c :: s) = if isspace c && (match rstrip s with [] => true | _ => false end)
                    then [] else c :: rstrip s.
Proof.
  simpl. destruct (rstrip s); destruct (isspace c); reflexivity.
Qed.

Lemma rstrip_blank (s w : str) : all_space w -> rstrip (s ++ w) = rstrip s.
Proof.
  intros W. induction s as [|c s IH].
  - simpl. now apply rstrip_nil_iff.
  - rewrite <- app_comm_cons, !rstrip_cons, IH. reflexivity.
Qed.

Lemma rstrip_split (s : str) : exists w, s = rstrip s ++ w /\ all_space w.
Proof.
  induction s as [|c s [w [E W]]].
  - exists []. split; [reflexivity | constructor].
  - rewrite rstrip_cons. destruct (rstrip s) as [|d r] eqn:R.
    + destruct (isspace c) eqn:Hc; simpl.
      * exists (c :: s). split; [reflexivity|].
        constructor; [exact Hc | now apply rstrip_nil_iff].
      * exists w. split; [simpl in E; congruence | exact W].
    + rewrite andb_false_r. exists w. split; [simpl in *; congruence | exact W].
Qed.

Lemma rstrip_app_visible (x : str) (c : char) (y : str) :
  isspace c = false -> rstrip (x ++ c :: y) = x ++ rstrip (c :: y).
Proof.
  intros Hc. induction x as [|d x IH]; [reflexivity|].
  rewrite <- app_comm_cons, rstrip_cons, IH.
  destruct (x ++ rstrip (c :: y)) eqn:E.
  - apply app_eq_nil in E. destruct E as [_ E].
    apply rstrip_nil_iff in E. inversion E; congruence.
  - rewrite andb_false_r. cbn [app]. congruence.
Qed.

Lemma rstrip_visible_last (x : str) (c : char) :
  isspace c = false -> rstrip (x ++ [c]) = x ++ [c].
Proof.
  intros Hc. rewrite rstrip_app_visible by exact Hc. simpl. now rewrite Hc.
Qed.

Lemma rstrip_idem (s : str) : rstrip (rstrip s) = rstrip s.
Proof.
  induction s as [|c s IH]; [reflexivity|].
  rewrite rstrip_cons.
  destruct (isspace c && _) eqn:B; [reflexivity|].
  rewrite rstrip_cons, IH, B. reflexivity.
Qed.

Lemma rstrip_keeps_head (c : char) (s : str) :
  isspace c = false -> rstrip (c :: s) = c :: rstrip s.
Proof. intros Hc. rewrite rstrip_cons, Hc. reflexivity. Qed.

Lemma lstrip_rstrip_lstrip (s : str) : lstrip (rstrip (lstrip s)) = rstrip (lstrip s).
Proof.
  destruct (lstrip_head s) as [E | [c [r [E Hc]]]]; rewrite E; [reflexivity|].
  rewrite rstrip_keeps_head by exact Hc. simpl. now rewrite Hc.
Qed.

Lemma strip_idem (s : str) : strip (strip s) = strip s.
Proof.
  unfold strip. rewrite lstrip_rstrip_lstrip. apply rstrip_idem.
Qed.

Lemma strip_blank_l (w s : str) : all_space w -> strip (w ++ s) = strip s.
Proof. intros W. unfold strip. now rewrite lstrip_blank. Qed.

Lemma lstrip_app_blank (s w : str) :
  all_space w -> rstrip (lstrip (s ++ w)) = rstrip (lstrip s).
Proof.
  intros W. induction s as [|c s IH]; simpl.
  - replace (lstrip w) with (@nil char); [reflexivity|].
    destruct (lstrip_split w) as [w' [E W']].
    destruct (lstrip_head w) as [H | [d [r [H Hd]]]]; [now rewrite H|].
    rewrite H in E. rewrite E in W. apply all_space_app in W.
    destruct W as [_ W]. inversion W; congruence.
  - destruct (isspace c); [exact IH|].
    now rewrite app_comm_cons, rstrip_blank.
Qed.

Lemma strip_blank_r (s w : str) : all_space w -> strip (s ++ w) = strip s.
Proof. intros W. unfold strip. now apply lstrip_app_blank. Qed.

Lemma strip_split (s : str) :
  exists l r, s = l ++ strip s ++ r /\ all_space l /\ all_space r.
Proof.
  destruct (lstrip_split s) as [l [E L]].
  destruct (rstrip_split (lstrip s)) as [r [E' R]].
  exists l, r. unfold strip. split; [|split]; try assumption.
  now rewrite <- E'.
Qed.

(** ** Literal prefixes and occurrences *)

Lemma eat_app (m v : str) : eat m (m ++ v) = Some v.
Proof.
  induction m as [|a m IH]; simpl; [reflexivity|].
  now rewrite N.eqb_refl.
Qed.

Lemma eat_some (m s r : str) : eat m s = Some r -> s = m ++ r.
Proof.
  revert s. induction m as [|a m IH]; intros [|c s]; simpl; try congruence.
  destruct (N.eqb_spec a c) as [->|]; [|discriminate].
  intros H. f_equal. now apply IH.
Qed.

Lemma eat_blank (m : str) (c : char) (s : str) :
  (exists a m', m = a :: m' /\ isspace a = false) ->
  isspace c = true -> eat m (c :: s) = None.
Proof.
  intros [a [m' [-> Ha]]] Hc. simpl.
  destruct (N.eqb_spec a c) as [->|]; [congruence | reflexivity].
Qed.

Lemma occurs_here (m v : str) : occurs m (m ++ v).
Proof. now exists [], v. Qed.

Lemma occurs_inside (m u s v : str) : occurs m s -> occurs m (u ++ s ++ v).
Proof.
  intros [a [b ->]]. exists (u ++ a), (b ++ v).
  now rewrite <- !app_assoc.
Qed.

Lemma occurs_cons (m : str) (c : char) (s : str) : occurs m s -> occurs m (c :: s).
Proof.
  intros H. apply (occurs_inside [c] []) in H.
  now rewrite app_nil_r in H.
Qed.

Lemma occurs_suffix (m u s : str) : occurs m s -> occurs m (u ++ s).
Proof.
  intros H. apply (occurs_inside u []) in H.
  now rewrite app_nil_r in H.
Qed.

Lemma occurs_prefix (m s v : str) : occurs m s -> occurs m (s ++ v).
Proof. intros H. exact (occurs_inside [] v H). Qed.

Lemma occurs_nil_inv (m : str) : occurs m [] -> m = [].
Proof.
  intros [u [v H]]. symmetry in H.
  apply app_eq_nil in H. destruct H as [_ H].
  now apply app_eq_nil in H.
Qed.

(** A marker without borders cannot start inside the text that precedes
    its own occurrence, unless it occurs in that text. *)
Lemma eat_border_free (m x v : str) :
  border_free m -> ~ occurs m x -> x <> [] -> eat m (x ++ m ++ v) = None.
Proof.
  intros B N X. destruct (eat m (x ++ m ++ v)) as [r|] eqn:E; [|reflexivity].
  exfalso. apply eat_some in E.
  apply app_eq_app in E. destruct E as [l [[E1 E2] | [E1 E2]]].
  - apply N. subst x. apply occurs_here.
  - apply app_eq_app in E2. destruct E2 as [l' [[E3 E4] | [E3 E4]]].
    + assert (l = []) by (eapply B; eassumption).
      subst l. rewrite app_nil_r in E1. apply N. subst x.
      exists [], []. now rewrite app_nil_r.
    + subst l. apply (f_equal (@List.length char)) in E1.
      rewrite !length_app in E1. destruct x; [congruence | simpl in E1; lia].
Qed.

Lemma str_eqb_refl (s : str) : str_eqb s s = true.
Proof. unfold str_eqb. destruct (list_eq_dec N.eq_dec s s); congruence. Qed.

Lemma border_freeb_sound (m : str) : border_freeb m = true -> border_free m.
Proof.
  intros H x y z E1 E2 X. destruct y as [|c y]; [reflexivity|]. exfalso.
  unfold border_freeb in H. rewrite forallb_forall in H.
  assert (Lx : List.length m = List.length x + S (List.length y))
    by (rewrite E1 at 1; rewrite length_app; reflexivity).
  assert (L0 : 0 < List.length x) by (destruct x; [congruence | simpl; lia]).
  specialize (H (S (List.length y))).
  assert (In (S (List.length y)) (seq 1 (List.length m - 1)))
    by (apply in_seq; lia).
  apply H in H0. apply negb_true_iff in H0.
  replace (firstn (S (List.length y)) m) with (c :: y) in H0.
  - replace (skipn (List.length m - S (List.length y)) m) with (c :: y) in H0.
    + rewrite str_eqb_refl in H0. discriminate.
    + replace (List.length m - S (List.length y)) with (List.length x) by lia.
      rewrite E1 at 1. rewrite skipn_app, skipn_all, Nat.sub_diag. reflexivity.
  - rewrite E2 at 1.
    change (S (List.length y)) with (List.length (c :: y)).
    rewrite firstn_app, firstn_all, Nat.sub_diag. simpl. now rewrite app_nil_r.
Qed.

(** ** What the matcher computes for [START\s*(.*?)\s*END] *)

Lemma exec_lit (d : bool) (l s : str) (g : option str) :
  exec d [Lit l] s g =
  match eat l s with
  | Some _ => Some {| group1 := g |}
  | None => None
  end.
Proof. simpl. destruct (eat l s); reflexivity. Qed.

Section Pair.

Variables start_marker end_marker : str.

Hypothesis end_visible :
  exists a m', end_marker = a :: m' /\ isspace a = false.

(** [\s*END]: skip the blanks, then the literal. *)
Lemma exec_tail (s : str) (g : option str) :
  exec DOTALL [Star Greedy Space; Lit end_marker] s g =
  match eat end_marker (lstrip s) with
  | Some _ => Some {| group1 := g |}
  | None => None
  end.
Proof.
  change (exec DOTALL [Star Greedy Space; Lit end_marker])
    with (greedy_star isspace (exec DOTALL [Lit end_marker])).
  induction s as [|c s IH]; cbn [greedy_star lstrip].
  - apply exec_lit.
  - destruct (isspace c) eqn:Hc.
    + rewrite IH. destruct (eat end_marker (lstrip s)); simpl; [reflexivity|].
      now rewrite (@eat_blank end_marker c s end_visible Hc).
    + apply exec_lit.
Qed.

Lemma first_end_none_head (s : str) :
  first_end end_marker s = None -> eat end_marker (lstrip s) = None.
Proof.
  destruct s; simpl; destruct (eat end_marker _); congruence.
Qed.

Lemma first_end_blank (c : char) (s : str) :
  isspace c = true ->
  first_end end_marker s = None -> first_end end_marker (c :: s) = None.
Proof.
  intros Hc H. simpl. rewrite Hc.
  rewrite (first_end_none_head _ H), H. reflexivity.
Qed.

Lemma first_end_blanks (w s : str) :
  all_space w ->
  first_end end_marker s = None -> first_end end_marker (w ++ s) = None.
Proof.
  induction 1 as [|c w Hc _ IH]; intros H; [exact H|].
  simpl app. apply first_end_blank; auto.
Qed.

(** [(.*?)\s*END]: the lazy group stops at the first place where blanks
    and the end marker follow. *)
Lemma lazy_group_first_end (s acc : str) :
  lazy_group (test DOTALL Dot)
             (exec DOTALL [Star Greedy Space; Lit end_marker]) acc s =
  option_map (fun a => {| group1 := Some (rev acc ++ a) |})
             (first_end end_marker s).
Proof.
  revert acc. induction s as [|c s IH]; intros acc.
  - cbn [lazy_group]. rewrite exec_tail. simpl.
    destruct (eat end_marker []); simpl; [now rewrite app_nil_r | reflexivity].
  - cbn [lazy_group first_end]. rewrite exec_tail.
    destruct (eat end_marker (lstrip (c :: s))); cbn [orelse option_map];
      [now rewrite app_nil_r|].
    change (test DOTALL Dot c) with true. cbn iota.
    rewrite IH. destruct (first_end end_marker s); cbn [option_map];
      [|reflexivity].
    simpl rev. now rewrite <- app_assoc.
Qed.

(** [\s*(.*?)\s*END]: the first star keeps every leading blank. *)
Lemma exec_body (s : str) (g : option str) :
  exec DOTALL [Star Greedy Space; GroupStar Lazy Dot;
               Star Greedy Space; Lit end_marker] s g =
  option_map (fun a => {| group1 := Some a |})
             (first_end end_marker (lstrip s)).
Proof.
  change (exec DOTALL [Star Greedy Space; GroupStar Lazy Dot;
                       Star Greedy Space; Lit end_marker])
    with (greedy_star isspace
            (fun s (_ : option str) =>
               lazy_group (test DOTALL Dot)
                 (exec DOTALL [Star Greedy Space; Lit end_marker]) [] s)).
  induction s as [|c s IH]; cbn [greedy_star].
  - now rewrite lazy_group_first_end.
  - destruct (isspace c) eqn:Hc.
    + rewrite IH. simpl lstrip. rewrite Hc.
      destruct (first_end end_marker (lstrip s)) eqn:F; cbn [option_map orelse]; [reflexivity|].
      rewrite lazy_group_first_end.
      destruct (lstrip_split s) as [w [E W]].
      rewrite (@first_end_blank c s Hc); [reflexivity|].
      rewrite E. now apply first_end_blanks.
    + rewrite lazy_group_first_end. simpl lstrip. now rewrite Hc.
Qed.

Lemma exec_section (s : str) (g : option str) :
  exec DOTALL (section_re start_marker end_marker) s g =
  match eat start_marker s with
  | Some r => option_map (fun a => {| group1 := Some a |})
                         (first_end end_marker (lstrip r))
  | None => None
  end.
Proof.
  unfold section_re.
  change (exec DOTALL (Lit start_marker :: ?p) s g)
    with (match eat start_marker s with
          | Some s' => exec DOTALL p s' g
          | None => None
          end).
  destruct (eat start_marker s); [apply exec_body | reflexivity].
Qed.

End Pair.

(** ** The match in terms of occurrences *)

Section Occurrence.

Variables start_marker end_marker : str.

Hypothesis end_visible :
  exists a m', end_marker = a :: m' /\ isspace a = false.

Lemma lstrip_marker (v : str) : lstrip (end_marker ++ v) = end_marker ++ v.
Proof.
  destruct end_visible as [a [m' [-> Ha]]]. simpl. now rewrite Ha.
Qed.

Lemma first_end_shape (s a : str) :
  first_end end_marker s = Some a ->
  exists w v, s = a ++ w ++ end_marker ++ v /\ all_space w.
Proof.
  revert a. induction s as [|c s IH]; intros a H.
  - simpl in H. destruct (eat end_marker []) as [r|] eqn:E; [|discriminate].
    injection H as <-. apply eat_some in E.
    exists [], r. split; [exact E | constructor].
  - cbn [first_end] in H.
    destruct (eat end_marker (lstrip (c :: s))) as [r|] eqn:E.
    + injection H as <-. apply eat_some in E.
      destruct (lstrip_split (c :: s)) as [w [Es W]].
      exists w, r. split; [|exact W]. simpl. now rewrite <- E.
    + destruct (first_end end_marker s) as [a'|] eqn:F; [|discriminate].
      injection H as <-.
      destruct (IH a' eq_refl) as [w [v [Es W]]].
      exists w, v. split; [simpl; congruence | exact W].
Qed.

Lemma first_end_clean (s a : str) :
  first_end end_marker s = Some a -> ~ occurs end_marker a.
Proof.
  revert a. induction s as [|c s IH]; intros a H O.
  - simpl in H. destruct (eat end_marker []); [|discriminate].
    injection H as <-. apply occurs_nil_inv in O.
    destruct end_visible as [? [? [E _]]]. congruence.
  - cbn [first_end] in H.
    destruct (eat end_marker (lstrip (c :: s))) as [r|] eqn:E.
    + injection H as <-. apply occurs_nil_inv in O.
      destruct end_visible as [? [? [E' _]]]. congruence.
    + destruct (first_end end_marker s) as [a'|] eqn:F; [|discriminate].
      injection H as <-. destruct O as [[|d u] [v O]].
      * destruct (first_end_shape _ F) as [w [v' [Es _]]].
        assert (Ec : c :: s = end_marker ++ v ++ w ++ end_marker ++ v').
        { rewrite Es, app_comm_cons, O. simpl. now rewrite <- !app_assoc. }
        rewrite Ec, lstrip_marker, eat_app in E. discriminate.
      * apply (IH a' eq_refl). simpl in O. injection O as _ ->.
        now exists u, v.
Qed.

Lemma first_end_here (s r : str) :
  eat end_marker (lstrip s) = Some r -> first_end end_marker s = Some [].
Proof.
  intros H. destruct s; cbn [first_end]; now rewrite H.
Qed.

Hypothesis end_border_free : border_free end_marker.

Lemma first_end_found (x v : str) :
  ~ occurs end_marker x ->
  first_end end_marker (x ++ end_marker ++ v) = Some (rstrip x).
Proof.
  induction x as [|c x IH]; intros N.
  - simpl app. apply first_end_here with (r := v).
    now rewrite lstrip_marker, eat_app.
  - rewrite <- app_comm_cons. cbn [first_end]. rewrite app_comm_cons.
    assert (L : lstrip ((c :: x) ++ end_marker ++ v) =
                lstrip (c :: x) ++ end_marker ++ v).
    { destruct end_visible as [a [m' [-> Ha]]].
      exact (@lstrip_app_visible (c :: x) a (m' ++ v) Ha). }
    rewrite L.
    destruct (lstrip (c :: x)) as [|d y] eqn:Y.
    + simpl app. rewrite eat_app.
      destruct (lstrip_split (c :: x)) as [w [E W]].
      rewrite Y, app_nil_r in E. rewrite E.
      symmetry. f_equal. now apply rstrip_nil_iff.
    + rewrite eat_border_free; [|exact end_border_free| |discriminate].
      * rewrite IH by (intros O; apply N; now apply occurs_cons).
        cbn [option_map]. f_equal. rewrite rstrip_cons.
        destruct (isspace c) eqn:Hc; [|reflexivity].
        destruct (rstrip x) eqn:R; [|reflexivity]. exfalso.
        apply rstrip_nil_iff in R.
        assert (W : all_space (c :: x)) by now constructor.
        pose proof (lstrip_blank [] W) as B.
        rewrite app_nil_r, Y in B. discriminate.
      * intros O. apply N.
        destruct (lstrip_split (c :: x)) as [w [E _]].
        rewrite E, Y. now apply occurs_suffix.
Qed.

Lemma has_pair_cons (c : char) (s : str) :
  has_pair start_marker end_marker s ->
  has_pair start_marker end_marker (c :: s).
Proof.
  intros [u [a [v E]]]. exists (c :: u), a, v. simpl. congruence.
Qed.

Lemma exec_sound (s : str) (m : Match) :
  exec DOTALL (section_re start_marker end_marker) s None = Some m ->
  has_pair start_marker end_marker s /\
  exists g, group1 m = Some g /\ ~ occurs end_marker g.
Proof.
  rewrite (exec_section _ end_visible).
  destruct (eat start_marker s) as [r|] eqn:E; [|discriminate].
  destruct (first_end end_marker (lstrip r)) as [a|] eqn:F; [|discriminate].
  cbn [option_map]. intros H. injection H as <-.
  apply eat_some in E.
  destruct (first_end_shape _ F) as [w [v [Es _]]].
  destruct (lstrip_split r) as [w0 [Er _]].
  split.
  - exists [], (w0 ++ a ++ w), v. cbn [app].
    etransitivity; [exact E|]. f_equal.
    etransitivity; [exact Er|]. rewrite Es. now rewrite <- !app_assoc.
  - exists a. split; [reflexivity | exact (first_end_clean _ F)].
Qed.

(** A successful search means the text holds the pair; the group took
    part in the match and holds no end marker. *)
Lemma search_sound (s : str) (m : Match) :
  search DOTALL (section_re start_marker end_marker) s = Some m ->
  has_pair start_marker end_marker s /\
  exists g, group1 m = Some g /\ ~ occurs end_marker g.
Proof.
  induction s as [|c s IH]; cbn [search];
    destruct (exec DOTALL (section_re start_marker end_marker) _ None)
      as [m'|] eqn:X; cbn [orelse]; intros H; try discriminate.
  - injection H as <-. exact (exec_sound _ X).
  - injection H as <-. exact (exec_sound _ X).
  - destruct (IH H) as [P G]. split; [now apply has_pair_cons | exact G].
Qed.

Lemma search_none (s : str) :
  ~ has_pair start_marker end_marker s ->
  search DOTALL (section_re start_marker end_marker) s = None.
Proof.
  intros N.
  destruct (search DOTALL (section_re start_marker end_marker) s) eqn:E;
    [|reflexivity].
  exfalso. apply N. exact (proj1 (search_sound _ E)).
Qed.

Hypothesis start_border_free : border_free start_marker.

(** The leftmost start marker followed by the first end marker after it:
    the group is the text in between, without its outer blanks. *)
Lemma search_found (u a v : str) :
  ~ occurs start_marker u ->
  ~ occurs end_marker a ->
  search DOTALL (section_re start_marker end_marker)
         (u ++ start_marker ++ a ++ end_marker ++ v) =
  Some {| group1 := Some (strip a) |}.
Proof.
  intros Nu Na. induction u as [|c u IH].
  - simpl app.
    assert (X : exec DOTALL (section_re start_marker end_marker)
                  (start_marker ++ a ++ end_marker ++ v) None =
                Some {| group1 := Some (strip a) |}).
    { rewrite (exec_section _ end_visible), eat_app.
      assert (L : lstrip (a ++ end_marker ++ v) = lstrip a ++ end_marker ++ v).
      { destruct end_visible as [e [m' [-> He]]].
        exact (@lstrip_app_visible a e (m' ++ v) He). }
      rewrite L, first_end_found; [reflexivity|].
      intros O. apply Na. destruct (lstrip_split a) as [w [E _]].
      rewrite E. now apply occurs_suffix. }
    destruct (start_marker ++ a ++ end_marker ++ v); cbn [search];
      now rewrite X.
  - rewrite <- app_comm_cons. cbn [search]. rewrite app_comm_cons.
    rewrite (exec_section _ end_visible).
    rewrite eat_border_free; [|exact start_border_free|exact Nu|discriminate].
    cbn [orelse]. apply IH. intros O. apply Nu. now apply occurs_cons.
Qed.

End Occurrence.

Section Completeness.

Variables start_marker end_marker : str.

Hypothesis end_visible :
  exists a m', end_marker = a :: m' /\ isspace a = false.

Lemma first_end_complete (s : str) :
  occurs end_marker s -> exists a, first_end end_marker s = Some a.
Proof.
  intros [u [v ->]]. induction u as [|c u [a IH]].
  - exists []. simpl app. apply first_end_here with (r := v).
    now rewrite (lstrip_marker end_visible), eat_app.
  - rewrite <- app_comm_cons. cbn [first_end].
    destruct (eat end_marker _); [now exists [] |].
    rewrite IH. now exists (c :: a).
Qed.

Lemma search_unfold (d : bool) (p : pattern) (s : str) :
  search d p s =
  orelse (exec d p s None)
         match s with
         | [] => None
         | _ :: s' => search d p s'
         end.
Proof. destruct s; reflexivity. Qed.

(** Whenever the text holds the pair, the search succeeds. *)
Lemma search_complete (s : str) :
  has_pair start_marker end_marker s ->
  exists m, search DOTALL (section_re start_marker end_marker) s = Some m.
Proof.
  intros [u [a [v ->]]]. induction u as [|c u [m IH]].
  - simpl app. rewrite search_unfold, (exec_section _ end_visible), eat_app.
    destruct (@first_end_complete (lstrip (a ++ end_marker ++ v))) as [g G].
    + destruct end_visible as [e [m' [E He]]].
      destruct (lstrip_split a) as [w [Ea _]].
      exists (lstrip a), v. rewrite E.
      exact (@lstrip_app_visible a e (m' ++ v) He).
    + rewrite G. cbn [option_map orelse]. eauto.
  - rewrite <- app_comm_cons. cbn [search].
    destruct (exec DOTALL _ _ None); cbn [orelse]; eauto.
Qed.

End Completeness.

(** ** The four markers *)

Lemma markerb_sound (m : str) :
  markerb m = true -> solid m /\ border_free m.
Proof.
  unfold markerb. intros H.
  apply andb_true_iff in H. destruct H as [H B].
  apply andb_true_iff in H. destruct H as [F L].
  split; [split|].
  - destruct m as [|a m']; [discriminate|].
    exists a, m'. split; [reflexivity | now apply negb_true_iff].
  - destruct m as [|a m']; [discriminate|].
    exists (removelast (a :: m')), (last (a :: m') 0%N).
    split; [apply app_removelast_last; discriminate | now apply negb_true_iff].
  - now apply border_freeb_sound.
Qed.

Lemma RAW_START_marker : solid RAW_START /\ border_free RAW_START.
Proof. apply markerb_sound. vm_compute. reflexivity. Qed.

Lemma RAW_END_marker : solid RAW_END /\ border_free RAW_END.
Proof. apply markerb_sound. vm_compute. reflexivity. Qed.

Lemma NOTES_START_marker : solid NOTES_START /\ border_free NOTES_START.
Proof. apply markerb_sound. vm_compute. reflexivity. Qed.

Lemma NOTES_END_marker : solid NOTES_END /\ border_free NOTES_END.
Proof. apply markerb_sound. vm_compute. reflexivity. Qed.

(** ** One field of the result *)

Lemma strip_around (pre m1 mid m2 post : str) :
  solid m1 -> solid m2 ->
  strip (pre ++ m1 ++ mid ++ m2 ++ post) =
  lstrip pre ++ m1 ++ mid ++ m2 ++ rstrip post.
Proof.
  intros [[a [m1' [-> Ha]]] _] [_ [m2' [d [-> Hd]]]]. unfold strip.
  rewrite <- !app_comm_cons, lstrip_app_visible by exact Ha.
  replace (lstrip pre ++ a :: m1' ++ mid ++ (m2' ++ [d]) ++ post)
    with ((lstrip pre ++ a :: m1' ++ mid ++ m2') ++ d :: post)
    by (rewrite <- !app_assoc; simpl; now rewrite <- !app_assoc).
  rewrite rstrip_app_visible, rstrip_keeps_head by exact Hd.
  rewrite <- !app_assoc. simpl. now rewrite <- !app_assoc.
Qed.

Lemma has_pair_strip (m1 m2 t : str) : has_pair m1 m2 (strip t) -> has_pair m1 m2 t.
Proof.
  intros [u [a [v E]]]. destruct (strip_split t) as [l [r [Et _]]].
  exists (l ++ u), a, (v ++ r). rewrite Et, E. now rewrite <- !app_assoc.
Qed.

Lemma strip_has_pair (m1 m2 t : str) :
  solid m1 -> solid m2 -> has_pair m1 m2 t -> has_pair m1 m2 (strip t).
Proof.
  intros S1 S2 [u [a [v ->]]]. rewrite strip_around by assumption.
  now exists (lstrip u), a, (rstrip v).
Qed.

Lemma occurs_strip (m s : str) : occurs m (strip s) -> occurs m s.
Proof.
  intros O. destruct (strip_split s) as [l [r [E _]]].
  rewrite E. now apply occurs_inside.
Qed.

Lemma occurs_lstrip (m s : str) : occurs m (lstrip s) -> occurs m s.
Proof.
  intros O. destruct (lstrip_split s) as [w [E _]].
  rewrite E. now apply occurs_suffix.
Qed.

Lemma has_pair_occurs_start (m1 m2 t : str) : has_pair m1 m2 t -> occurs m1 t.
Proof. intros [u [a [v ->]]]. now exists u, (a ++ m2 ++ v). Qed.

Lemma has_pair_occurs_end (m1 m2 t : str) : has_pair m1 m2 t -> occurs m2 t.
Proof.
  intros [u [a [v ->]]]. exists (u ++ m1 ++ a), v. now rewrite <- !app_assoc.
Qed.

Lemma full_text_of_some (t : str) : full_text_of (Some t) = strip t.
Proof. destruct t; reflexivity. Qed.

Section Field.

Variables start_marker end_marker : str.
Hypothesis start_ok : solid start_marker /\ border_free start_marker.
Hypothesis end_ok : solid end_marker /\ border_free end_marker.

(** The field is always a string: a matched group always took part. *)
Lemma field_total (fallback full_text : str) :
  exists x,
    field_value (section_re start_marker end_marker) fallback full_text =
    Return x.
Proof.
  unfold field_value.
  destruct (search DOTALL _ full_text) as [m|] eqn:E; [|eauto].
  destruct (search_sound _ (proj1 (proj1 end_ok)) _ E) as [_ [g [G _]]].
  unfold group1_strip. rewrite G. eauto.
Qed.

Lemma field_fallback (fallback t : str) :
  ~ has_pair start_marker end_marker t ->
  field_value (section_re start_marker end_marker) fallback (strip t) =
  Return fallback.
Proof.
  intros N. unfold field_value. rewrite search_none; [reflexivity| |].
  - exact (proj1 (proj1 end_ok)).
  - intros P. apply N. now apply has_pair_strip.
Qed.

Lemma field_found (fallback u a v : str) :
  ~ occurs start_marker u ->
  ~ occurs end_marker a ->
  field_value (section_re start_marker end_marker) fallback
              (strip (u ++ start_marker ++ a ++ end_marker ++ v)) =
  Return (strip a).
Proof.
  intros Nu Na. unfold field_value.
  rewrite strip_around by (apply start_ok || apply end_ok).
  rewrite search_found.
  - unfold group1_strip. cbn [group1]. now rewrite strip_idem.
  - exact (proj1 (proj1 end_ok)).
  - apply end_ok.
  - apply start_ok.
  - intros O. apply Nu. now apply occurs_lstrip.
  - exact Na.
Qed.

Lemma field_clean (fallback t x : str) :
  has_pair start_marker end_marker t ->
  field_value (section_re start_marker end_marker) fallback (strip t) =
  Return x ->
  ~ occurs end_marker x.
Proof.
  intros P. unfold field_value.
  destruct (@search_complete start_marker end_marker (proj1 (proj1 end_ok)) (strip t))
    as [m E].
  - apply strip_has_pair; (apply start_ok || apply end_ok || exact P).
  - rewrite E. destruct (search_sound _ (proj1 (proj1 end_ok)) _ E) as [_ [g [G C]]].
    unfold group1_strip. rewrite G. intros H. injection H as <-.
    intros O. apply C. now apply occurs_strip.
Qed.

End Field.

Lemma extract_fields (r : option str) :
  extract r =
  (x <-- field_value raw_re (full_text_of r) (full_text_of r) ;;
   y <-- field_value notes_re (NOTICE ++ full_text_of r) (full_text_of r) ;;
   Return {| raw_transcript := x; accessible_transcript := y |}).
Proof. reflexivity. Qed.

(** ** The executable tests agree with their statements *)

Lemma contains_unfold (m s : str) :
  contains m s =
  match eat m s with
  | Some _ => true
  | None => match s with [] => false | _ :: s' => contains m s' end
  end.
Proof. destruct s; reflexivity. Qed.

Lemma contains_occurs (m s : str) : contains m s = true <-> occurs m s.
Proof.
  split.
  - induction s as [|c s IH]; rewrite contains_unfold;
      destruct (eat m _) as [r|] eqn:E; intros H; try discriminate.
    + apply eat_some in E. rewrite E. apply occurs_here.
    + apply eat_some in E. rewrite E. apply occurs_here.
    + apply occurs_cons. now apply IH.
  - intros [u [v ->]]. induction u as [|c u IH].
    + simpl app. now rewrite contains_unfold, eat_app.
    + rewrite <- app_comm_cons, contains_unfold.
      destruct (eat m _); [reflexivity | exact IH].
Qed.

Lemma contains_false (m s : str) : contains m s = false -> ~ occurs m s.
Proof.
  intros H O. apply contains_occurs in O. congruence.
Qed.

Lemma after_first_unfold (m s : str) :
  after_first m s =
  match eat m s with
  | Some r => Some r
  | None => match s with [] => None | _ :: s' => after_first m s' end
  end.
Proof. destruct s; reflexivity. Qed.

Lemma after_first_some (m s r : str) :
  after_first m s = Some r -> exists u, s = u ++ m ++ r.
Proof.
  induction s as [|c s IH]; rewrite after_first_unfold;
    destruct (eat m _) as [r'|] eqn:E; intros H; try discriminate.
  - injection H as ->. exists []. cbn [app]. now apply eat_some.
  - injection H as ->. exists []. cbn [app]. now apply eat_some.
  - destruct (IH H) as [u ->]. now exists (c :: u).
Qed.

Lemma has_pairb_sound (m1 m2 s : str) :
  has_pairb m1 m2 s = true -> has_pair m1 m2 s.
Proof.
  unfold has_pairb. destruct (after_first m1 s) as [r|] eqn:A; [|discriminate].
  intros C. apply contains_occurs in C. destruct C as [a [v ->]].
  destruct (after_first_some _ _ A) as [u ->]. now exists u, a, v.
Qed.

Lemma has_pairb_complete (m1 m2 s : str) :
  has_pair m1 m2 s -> has_pairb m1 m2 s = true.
Proof.
  intros [u [a [v ->]]]. unfold has_pairb. induction u as [|c u IH].
  - simpl app. rewrite after_first_unfold, eat_app.
    apply contains_occurs. now exists a, v.
  - rewrite after_first_unfold.
    destruct (eat m1 _) as [r|] eqn:E; [|exact IH].
    apply contains_occurs. apply eat_some in E.
    apply app_eq_app in E. destruct E as [l [[E1 E2] | [E1 E2]]].
    + rewrite E2. exists (l ++ m1 ++ a), v. now rewrite <- !app_assoc.
    + apply app_eq_app in E2. destruct E2 as [l' [[E3 E4] | [E3 E4]]].
      * rewrite E4. exists (l' ++ a), v. now rewrite <- !app_assoc.
      * exfalso. rewrite E3 in E1. apply (f_equal (@List.length char)) in E1.
        rewrite !length_app in E1. simpl in E1. lia.
Qed.

Lemma has_pairb_false (m1 m2 s : str) :
  has_pairb m1 m2 s = false -> ~ has_pair m1 m2 s.
Proof.
  intros H P. apply has_pairb_complete in P. congruence.
Qed.

Lemma forallb_all_space (w : str) : forallb isspace w = true -> all_space w.
Proof.
  intros H. apply Forall_forall. now apply forallb_forall.
Qed.

Lemma strip_all_space (w : str) : all_space w -> strip w = [].
Proof.
  intros W. unfold strip.
  pose proof (lstrip_blank [] W) as B. rewrite app_nil_r in B.
  now rewrite B.
Qed.

Lemma all_space_no_marker (m w : str) : solid m -> all_space w -> ~ occurs m w.
Proof.
  intros [[a [m' [-> Ha]]] _] W [u [v ->]].
  apply all_space_app in W. destruct W as [_ W].
  inversion W; congruence.
Qed.

(** ** The two fields of [analyze_audio_file] *)

Lemma reassoc_pair (p m1 a m2 q rest : str) :
  p ++ m1 ++ a ++ m2 ++ q ++ rest = (p ++ m1 ++ a ++ m2 ++ q) ++ rest.
Proof. now rewrite <- !app_assoc. Qed.

Lemma raw_found (fallback u a v : str) :
  contains RAW_START u = false ->
  contains RAW_END a = false ->
  field_value raw_re fallback (strip (u ++ RAW_START ++ a ++ RAW_END ++ v)) =
  Return (strip a).
Proof.
  intros Hu Ha.
  apply (field_found RAW_START_marker RAW_END_marker); now apply contains_false.
Qed.

Lemma notes_found (fallback u a v : str) :
  contains NOTES_START u = false ->
  contains NOTES_END a = false ->
  field_value notes_re fallback
              (strip (u ++ NOTES_START ++ a ++ NOTES_END ++ v)) =
  Return (strip a).
Proof.
  intros Hu Ha.
  apply (field_found NOTES_START_marker NOTES_END_marker);
    now apply contains_false.
Qed.

Lemma raw_fallback (fallback t : str) :
  ~ has_pair RAW_START RAW_END t ->
  field_value raw_re fallback (strip t) = Return fallback.
Proof. apply (field_fallback RAW_END_marker). Qed.

Lemma notes_fallback (fallback t : str) :
  ~ has_pair NOTES_START NOTES_END t ->
  field_value notes_re fallback (strip t) = Return fallback.
Proof. apply (field_fallback NOTES_END_marker). Qed.

Lemma raw_total (fallback full_text : str) :
  exists x, field_value raw_re fallback full_text = Return x.
Proof. apply (field_total RAW_START RAW_END_marker). Qed.

Lemma notes_total (fallback full_text : str) :
  exists x, field_value notes_re fallback full_text = Return x.
Proof. apply (field_total NOTES_START NOTES_END_marker). Qed.

Lemma extract_of_fields (t x y : str) :
  field_value raw_re (strip t) (strip t) = Return x ->
  field_value notes_re (NOTICE ++ strip t) (strip t) = Return y ->
  extract (Some t) =
  Return {| raw_transcript := x; accessible_transcript := y |}.
Proof.
  intros R N. rewrite extract_fields, full_text_of_some, R. cbn [obind].
  now rewrite N.
Qed.

(** ** The claims *)

(** C1. When the text holds the raw pair and then the notes pair, each
    start marker being the first of its kind and each content free of its
    own end marker, the result is exactly the two stripped contents;
    content made of blanks only gives the empty string; the scenario of
    the specification gives "Hello" and "World". *)
Theorem C1_both_sections_extracted :
  (forall pre a mid b post : str,
      contains RAW_START pre = false ->
      contains RAW_END a = false ->
      contains NOTES_START (pre ++ RAW_START ++ a ++ RAW_END ++ mid) = false ->
      contains NOTES_END b = false ->
      extract (Some (pre ++ RAW_START ++ a ++ RAW_END ++ mid ++
                     NOTES_START ++ b ++ NOTES_END ++ post)) =
      Return {| raw_transcript := strip a;
                accessible_transcript := strip b |}) /\
  (forall pre a mid b post : str,
      forallb isspace a = true ->
      forallb isspace b = true ->
      contains RAW_START pre = false ->
      contains NOTES_START (pre ++ RAW_START ++ a ++ RAW_END ++ mid) = false ->
      extract (Some (pre ++ RAW_START ++ a ++ RAW_END ++ mid ++
                     NOTES_START ++ b ++ NOTES_END ++ post)) =
      Return {| raw_transcript := []; accessible_transcript := [] |}) /\
  extract (Some scenario) =
  Return {| raw_transcript := py "Hello";
            accessible_transcript := py "World" |}.
Proof.
  assert (G : forall pre a mid b post : str,
      ~ occurs RAW_START pre ->
      ~ occurs RAW_END a ->
      ~ occurs NOTES_START (pre ++ RAW_START ++ a ++ RAW_END ++ mid) ->
      ~ occurs NOTES_END b ->
      extract (Some (pre ++ RAW_START ++ a ++ RAW_END ++ mid ++
                     NOTES_START ++ b ++ NOTES_END ++ post)) =
      Return {| raw_transcript := strip a;
                accessible_transcript := strip b |}).
  { intros pre a mid b post H1 H2 H3 H4. apply extract_of_fields.
    - now apply (field_found RAW_START_marker RAW_END_marker).
    - rewrite reassoc_pair.
      now apply (field_found NOTES_START_marker NOTES_END_marker). }
  split; [|split].
  - intros pre a mid b post H1 H2 H3 H4.
    apply G; now apply contains_false.
  - intros pre a mid b post Wa Wb H1 H3.
    apply forallb_all_space in Wa, Wb.
    rewrite G.
    + now rewrite (strip_all_space Wa), (strip_all_space Wb).
    + now apply contains_false.
    + apply all_space_no_marker; [apply RAW_END_marker | exact Wa].
    + now apply contains_false.
    + apply all_space_no_marker; [apply NOTES_END_marker | exact Wb].
  - vm_compute. reflexivity.
Qed.

Lemma C1_witness :
  extract (Some ([] ++ RAW_START ++ (nl ++ py "Hello" ++ nl) ++ RAW_END ++
                 (nl ++ nl) ++
                 NOTES_START ++ (nl ++ py "World" ++ nl) ++ NOTES_END ++ [])) =
  Return {| raw_transcript := strip (nl ++ py "Hello" ++ nl);
            accessible_transcript := strip (nl ++ py "World" ++ nl) |}.
Proof.
  apply (proj1 C1_both_sections_extracted); vm_compute; reflexivity.
Defined.

(** C2. When the text does not hold a raw start marker followed by a raw
    end marker, [raw_transcript] is the whole stripped text, whatever
    happens to the notes; when the notes pair is missing as well,
    [accessible_transcript] is the notice followed by the stripped text. *)
Theorem C2_raw_fallback :
  forall t : str,
    has_pairb RAW_START RAW_END t = false ->
    exists notes,
      extract (Some t) =
      Return {| raw_transcript := strip t; accessible_transcript := notes |} /\
      (has_pairb NOTES_START NOTES_END t = false ->
       notes = NOTICE ++ strip t).
Proof.
  intros t H. apply has_pairb_false in H.
  destruct (notes_total (NOTICE ++ strip t) (strip t)) as [y Y].
  exists y. split.
  - apply extract_of_fields; [now apply raw_fallback | exact Y].
  - intros N. apply has_pairb_false in N.
    rewrite notes_fallback in Y by exact N. congruence.
Qed.

Lemma C2_witness :
  exists notes,
    extract (Some (RAW_END ++ py "reversed" ++ RAW_START)) =
    Return {| raw_transcript := strip (RAW_END ++ py "reversed" ++ RAW_START);
              accessible_transcript := notes |} /\
    notes = NOTICE ++ strip (RAW_END ++ py "reversed" ++ RAW_START).
Proof.
  destruct (C2_raw_fallback (RAW_END ++ py "reversed" ++ RAW_START))
    as [notes [E N]]; [vm_compute; reflexivity|].
  exists notes. split; [exact E | apply N; vm_compute; reflexivity].
Defined.

(** C3. When the text does not hold a notes start marker followed by a
    notes end marker, [accessible_transcript] is the fixed notice followed
    by the whole stripped text, whatever happens to the raw section. *)
Theorem C3_notes_fallback :
  forall t : str,
    has_pairb NOTES_START NOTES_END t = false ->
    exists raw,
      extract (Some t) =
      Return {| raw_transcript := raw;
                accessible_transcript := NOTICE ++ strip t |}.
Proof.
  intros t H. apply has_pairb_false in H.
  destruct (raw_total (strip t) (strip t)) as [x X].
  exists x. apply extract_of_fields; [exact X | now apply notes_fallback].
Qed.

Lemma C3_witness :
  exists raw,
    extract (Some (RAW_START ++ py " kept " ++ RAW_END)) =
    Return {| raw_transcript := raw;
              accessible_transcript :=
                NOTICE ++ strip (RAW_START ++ py " kept " ++ RAW_END) |}.
Proof.
  apply (C3_notes_fallback (RAW_START ++ py " kept " ++ RAW_END)).
  vm_compute. reflexivity.
Defined.

(** C4, as amended.  The match is lazy towards the end marker only: it
    starts at the first start marker and stops at the first end marker
    after it.  A second start marker met before that end marker is not a
    new beginning: it stays inside the extracted content, which is the
    stripped text between the first start marker and that end marker. *)
Theorem C4_duplicate_start_is_content :
  (forall u x y v : str,
      contains RAW_START u = false ->
      contains RAW_END (x ++ RAW_START ++ y) = false ->
      exists notes,
        extract (Some (u ++ RAW_START ++ x ++ RAW_START ++ y ++ RAW_END ++ v)) =
        Return {| raw_transcript := strip (x ++ RAW_START ++ y);
                  accessible_transcript := notes |}) /\
  (forall u x y v : str,
      contains NOTES_START u = false ->
      contains NOTES_END (x ++ NOTES_START ++ y) = false ->
      exists raw,
        extract (Some (u ++ NOTES_START ++ x ++ NOTES_START ++ y ++
                       NOTES_END ++ v)) =
        Return {| raw_transcript := raw;
                  accessible_transcript := strip (x ++ NOTES_START ++ y) |}).
Proof.
  split; intros u x y v Hu Hx.
  - set (t := u ++ RAW_START ++ x ++ RAW_START ++ y ++ RAW_END ++ v).
    destruct (notes_total (NOTICE ++ strip t) (strip t)) as [n N].
    exists n. apply extract_of_fields; [|exact N]. unfold t.
    replace (x ++ RAW_START ++ y ++ RAW_END ++ v)
      with ((x ++ RAW_START ++ y) ++ RAW_END ++ v)
      by now rewrite <- !app_assoc.
    now apply raw_found.
  - set (t := u ++ NOTES_START ++ x ++ NOTES_START ++ y ++ NOTES_END ++ v).
    destruct (raw_total (strip t) (strip t)) as [r R].
    exists r. apply extract_of_fields; [exact R|]. unfold t.
    replace (x ++ NOTES_START ++ y ++ NOTES_END ++ v)
      with ((x ++ NOTES_START ++ y) ++ NOTES_END ++ v)
      by now rewrite <- !app_assoc.
    now apply notes_found.
Qed.

Lemma C4_witness :
  exists notes,
    extract (Some ([] ++ RAW_START ++ py "A" ++ RAW_START ++ py "B" ++
                   RAW_END ++ [])) =
    Return {| raw_transcript := strip (py "A" ++ RAW_START ++ py "B");
              accessible_transcript := notes |}.
Proof.
  apply (proj1 C4_duplicate_start_is_content [] (py "A") (py "B") []);
    vm_compute; reflexivity.
Defined.

(** C4, as stated, fails: with two raw start markers before the end
    marker the extracted content runs from the first start marker and so
    holds the second one. *)
Lemma C4_counterexample :
  extract (Some (RAW_START ++ py "A" ++ RAW_START ++ py "B" ++ RAW_END)) =
  Return {| raw_transcript := py "A" ++ RAW_START ++ py "B";
            accessible_transcript :=
              NOTICE ++ RAW_START ++ py "A" ++ RAW_START ++ py "B" ++ RAW_END |}
  /\
  ~ (forall (x y : str) (r : result),
        contains RAW_END (x ++ RAW_START ++ y) = false ->
        extract (Some (RAW_START ++ x ++ RAW_START ++ y ++ RAW_END)) =
        Return r ->
        contains RAW_START (raw_transcript r) = false).
Proof.
  split; [vm_compute; reflexivity|].
  intros H.
  specialize (H (py "A") (py "B") _ eq_refl eq_refl).
  vm_compute in H. discriminate.
Qed.

(** C5. The empty response gives the empty [raw_transcript] and the bare
    notice as [accessible_transcript]; so does a response without text. *)
Theorem C5_empty_input :
  extract (Some []) =
  Return {| raw_transcript := []; accessible_transcript := NOTICE ++ [] |} /\
  extract None =
  Return {| raw_transcript := []; accessible_transcript := NOTICE ++ [] |}.
Proof. split; vm_compute; reflexivity. Qed.

(** C6. Whatever the response text, absent, empty or arbitrary, the
    extraction raises nothing and returns a record with its two string
    fields. *)
Theorem C6_extract_total :
  forall response_text : option str,
    exists raw notes : str,
      extract response_text =
      Return {| raw_transcript := raw; accessible_transcript := notes |}.
Proof.
  intros r. rewrite extract_fields.
  destruct (raw_total (full_text_of r) (full_text_of r)) as [x X].
  destruct (notes_total (NOTICE ++ full_text_of r) (full_text_of r)) as [y Y].
  exists x, y. rewrite X. cbn [obind]. now rewrite Y.
Qed.

(** C7. With a falsy API key ([None] or the empty string) the function
    raises [RuntimeError] at once: the log of calls is left as it was, so
    no client was made, nothing was uploaded and no model was called. *)
Theorem C7_missing_key :
  forall (File : Type) (G : Gemini File) (audio_path : str)
         (api_key : option str) (log : list call),
    truthy api_key = false ->
    analyze_audio_file G audio_path api_key log =
    (log, Raise (RuntimeError api_key_message)).
Proof.
  intros File G audio_path api_key log H.
  unfold analyze_audio_file. now rewrite H.
Qed.

Lemma C7_witness :
  analyze_audio_file
    {| new_client := fun _ => Return tt;
       files_upload := fun _ => Return tt;
       generate_content := fun _ _ _ => Return (Some scenario) |}
    (py "lecture.mp3") (Some []) [] =
  ([], Raise (RuntimeError api_key_message)).
Proof.
  apply C7_missing_key. reflexivity.
Defined.

(** C8. A text with none of the four markers takes the fallback on both
    fields, and extracting again from the [raw_transcript] so produced
    gives the very same record. *)
Theorem C8_fallback_idempotent :
  forall t : str,
    contains RAW_START t = false ->
    contains RAW_END t = false ->
    contains NOTES_START t = false ->
    contains NOTES_END t = false ->
    let r := {| raw_transcript := strip t;
                accessible_transcript := NOTICE ++ strip t |} in
    extract (Some t) = Return r /\
    extract (Some (raw_transcript r)) = Return r.
Proof.
  intros t H1 _ H3 _ r.
  apply contains_false in H1, H3.
  assert (P1 : ~ has_pair RAW_START RAW_END t)
    by (intros P; apply H1; exact (has_pair_occurs_start P)).
  assert (P2 : ~ has_pair NOTES_START NOTES_END t)
    by (intros P; apply H3; exact (has_pair_occurs_start P)).
  split.
  - apply extract_of_fields; [now apply raw_fallback | now apply notes_fallback].
  - cbn [raw_transcript r]. unfold r. rewrite <- (strip_idem t) at 2 3.
    apply extract_of_fields.
    + apply raw_fallback. intros P. apply P1. now apply has_pair_strip.
    + apply notes_fallback. intros P. apply P2. now apply has_pair_strip.
Qed.

Lemma C8_witness :
  let r := {| raw_transcript := strip (py "  plain words ");
              accessible_transcript := NOTICE ++ strip (py "  plain words ") |} in
  extract (Some (py "  plain words ")) = Return r /\
  extract (Some (raw_transcript r)) = Return r.
Proof.
  apply (C8_fallback_idempotent (py "  plain words ")); reflexivity.
Defined.

(** C9. Each pair is searched in the whole text: when the notes pair
    comes first and the raw pair after it, both sections are extracted
    just the same. *)
Theorem C9_order_independent :
  forall pre b mid a post : str,
    contains NOTES_START pre = false ->
    contains NOTES_END b = false ->
    contains RAW_START (pre ++ NOTES_START ++ b ++ NOTES_END ++ mid) = false ->
    contains RAW_END a = false ->
    extract (Some (pre ++ NOTES_START ++ b ++ NOTES_END ++ mid ++
                   RAW_START ++ a ++ RAW_END ++ post)) =
    Return {| raw_transcript := strip a; accessible_transcript := strip b |}.
Proof.
  intros pre b mid a post H1 H2 H3 H4. apply extract_of_fields.
  - rewrite reassoc_pair. now apply raw_found.
  - now apply notes_found.
Qed.

Lemma C9_witness :
  extract (Some ([] ++ NOTES_START ++ py " World " ++ NOTES_END ++ nl ++
                 RAW_START ++ py " Hello " ++ RAW_END ++ [])) =
  Return {| raw_transcript := strip (py " Hello ");
            accessible_transcript := strip (py " World ") |}.
Proof.
  apply C9_order_independent; vm_compute; reflexivity.
Defined.

(** C10. Whenever a pair is matched, the field taken from it does not
    hold the end marker of that pair. *)
Theorem C10_no_end_marker_in_field :
  forall t : str,
    exists r,
      extract (Some t) = Return r /\
      (has_pairb RAW_START RAW_END t = true ->
       contains RAW_END (raw_transcript r) = false) /\
      (has_pairb NOTES_START NOTES_END t = true ->
       contains NOTES_END (accessible_transcript r) = false).
Proof.
  intros t.
  destruct (raw_total (strip t) (strip t)) as [x X].
  destruct (notes_total (NOTICE ++ strip t) (strip t)) as [y Y].
  exists {| raw_transcript := x; accessible_transcript := y |}.
  split; [now apply extract_of_fields|].
  cbn [raw_transcript accessible_transcript].
  split; intros P; apply has_pairb_sound in P.
  - destruct (contains RAW_END x) eqn:C; [|reflexivity]. exfalso.
    apply contains_occurs in C.
    exact (@field_clean _ _ RAW_START_marker RAW_END_marker _ _ _ P X C).
  - destruct (contains NOTES_END y) eqn:C; [|reflexivity]. exfalso.
    apply contains_occurs in C.
    exact (@field_clean _ _ NOTES_START_marker NOTES_END_marker _ _ _ P Y C).
Qed.

Lemma C10_witness :
  exists r,
    extract (Some scenario) = Return r /\
    contains RAW_END (raw_transcript r) = false /\
    contains NOTES_END (accessible_transcript r) = false.
Proof.
  destruct (C10_no_end_marker_in_field scenario) as [r [E [H1 H2]]].
  exists r. split; [exact E|].
  split; [apply H1 | apply H2]; vm_compute; reflexivity.
Defined.

(** * Further properties of [analyze_audio_file] *)

(** ** The searches as two cuts *)

Lemma before_first_unfold (m s : str) :
  before_first m s =
  match eat m s with
  | Some _ => Some []
  | None =>
      match s with
      | [] => None
      | c :: s' => option_map (cons c) (before_first m s')
      end
  end.
Proof. destruct s; reflexivity. Qed.

Lemma before_first_some (m s a : str) :
  m <> [] ->
  before_first m s = Some a ->
  exists v, s = a ++ m ++ v /\ ~ occurs m a.
Proof.
  intros M. revert a.
  induction s as [|c s IH]; intros a; rewrite before_first_unfold;
    destruct (eat m _) as [r|] eqn:E; intros H; try discriminate.
  - injection H as <-. exists r. split; [cbn [app]; now apply eat_some|].
    intros O. now apply occurs_nil_inv in O.
  - injection H as <-. exists r. split; [cbn [app]; now apply eat_some|].
    intros O. now apply occurs_nil_inv in O.
  - destruct (before_first m s) as [a'|] eqn:B; [|discriminate].
    injection H as <-. destruct (IH a' eq_refl) as [v [Es N]].
    exists v. split; [simpl; congruence|].
    intros [[|d u] [v' O]].
    + cbn [app] in O.
      assert (Ec : c :: s = m ++ v' ++ m ++ v).
      { rewrite Es, app_comm_cons, O. now rewrite <- !app_assoc. }
      rewrite Ec, eat_app in E. discriminate.
    + apply N. simpl in O. injection O as _ ->. now exists u, v'.
Qed.

Lemma before_first_none (m s : str) :
  before_first m s = None -> contains m s = false.
Proof.
  induction s as [|c s IH]; rewrite before_first_unfold, contains_unfold;
    destruct (eat m _); intros H; try discriminate; try reflexivity.
  destruct (before_first m s); [discriminate | now apply IH].
Qed.

Lemma after_first_first (m s r : str) :
  m <> [] ->
  after_first m s = Some r ->
  exists u, s = u ++ m ++ r /\ ~ occurs m u.
Proof.
  intros M.
  induction s as [|c s IH]; rewrite after_first_unfold;
    destruct (eat m _) as [r'|] eqn:E; intros H; try discriminate.
  - injection H as ->. exists []. split; [cbn [app]; now apply eat_some|].
    intros O. now apply occurs_nil_inv in O.
  - injection H as ->. exists []. split; [cbn [app]; now apply eat_some|].
    intros O. now apply occurs_nil_inv in O.
  - destruct (IH H) as [u [Es N]]. exists (c :: u).
    split; [simpl; congruence|].
    intros [[|d u'] [v' O]].
    + cbn [app] in O.
      assert (Ec : c :: s = m ++ v' ++ m ++ r).
      { rewrite Es, app_comm_cons, O. now rewrite <- !app_assoc. }
      rewrite Ec, eat_app in E. discriminate.
    + apply N. simpl in O. injection O as _ ->. now exists u', v'.
Qed.

Lemma solid_nonempty (m : str) : solid m -> m <> [].
Proof. intros [[a [m' [-> _]]] _]. discriminate. Qed.

Lemma before_first_contains (m s a : str) :
  before_first m s = Some a -> contains m s = true.
Proof.
  revert a.
  induction s as [|c s IH]; intros a;
    rewrite before_first_unfold, contains_unfold;
    destruct (eat m _); intros H; try discriminate; try reflexivity.
  destruct (before_first m s) as [a'|]; [|discriminate].
  exact (IH a' eq_refl).
Qed.

Lemma split_field_fallback (m1 m2 fallback full_text : str) :
  has_pairb m1 m2 full_text = false ->
  split_field m1 m2 fallback full_text = fallback.
Proof.
  unfold has_pairb, split_field.
  destruct (after_first m1 full_text) as [r|]; [|reflexivity].
  intros C. destruct (before_first m2 r) as [a|] eqn:B; [|reflexivity].
  apply before_first_contains in B. congruence.
Qed.

Lemma split_field_found (m1 m2 fallback full_text : str) :
  solid m1 -> solid m2 ->
  has_pairb m1 m2 full_text = true ->
  exists u a v,
    full_text = u ++ m1 ++ a ++ m2 ++ v /\
    ~ occurs m1 u /\ ~ occurs m2 a /\
    split_field m1 m2 fallback full_text = strip a.
Proof.
  intros S1 S2. unfold has_pairb, split_field.
  destruct (after_first m1 full_text) as [r|] eqn:A; [|discriminate].
  intros C.
  destruct (@after_first_first _ _ _ (solid_nonempty S1) A) as [u [Eu Nu]].
  destruct (before_first m2 r) as [a|] eqn:B.
  - destruct (@before_first_some _ _ _ (solid_nonempty S2) B) as [v [Ea Na]].
    exists u, a, v. repeat split; try assumption. congruence.
  - apply before_first_none in B. congruence.
Qed.

Section Split.

Variables start_marker end_marker : str.
Hypothesis start_ok : solid start_marker /\ border_free start_marker.
Hypothesis end_ok : solid end_marker /\ border_free end_marker.

(** On every text the search and the two cuts give the same field. *)
Lemma field_split (fallback full_text : str) :
  field_value (section_re start_marker end_marker) fallback full_text =
  Return (split_field start_marker end_marker fallback full_text).
Proof.
  destruct (has_pairb start_marker end_marker full_text) eqn:P.
  - destruct (@split_field_found _ _ fallback _ (proj1 start_ok) (proj1 end_ok) P)
      as [u [a [v [E [Nu [Na ->]]]]]].
    unfold field_value. rewrite E, search_found.
    + unfold group1_strip. cbn [group1]. now rewrite strip_idem.
    + exact (proj1 (proj1 end_ok)).
    + apply end_ok.
    + apply start_ok.
    + exact Nu.
    + exact Na.
  - rewrite (@split_field_fallback _ _ fallback _ P). unfold field_value.
    rewrite search_none; [reflexivity | exact (proj1 (proj1 end_ok)) |].
    now apply has_pairb_false.
Qed.

End Split.

Lemma extract_split (r : option str) :
  extract r =
  Return {| raw_transcript :=
              split_field RAW_START RAW_END (full_text_of r) (full_text_of r);
            accessible_transcript :=
              split_field NOTES_START NOTES_END
                          (NOTICE ++ full_text_of r) (full_text_of r) |}.
Proof.
  rewrite extract_fields.
  unfold raw_re, notes_re.
  rewrite (field_split RAW_START_marker RAW_END_marker). cbn [obind].
  now rewrite (field_split NOTES_START_marker NOTES_END_marker).
Qed.

Lemma occurs_trans (x a s : str) : occurs x a -> occurs a s -> occurs x s.
Proof.
  intros O [u [v ->]]. now apply occurs_inside.
Qed.

Lemma strip_occurs (s : str) : occurs (strip s) s.
Proof.
  destruct (strip_split s) as [l [r [E _]]]. now exists l, r.
Qed.

Lemma rstrip_app_nonblank (x y : str) :
  rstrip y <> [] -> rstrip (x ++ y) = x ++ rstrip y.
Proof.
  intros Y. induction x as [|c x IH]; [reflexivity|].
  rewrite <- app_comm_cons, rstrip_cons, IH.
  destruct (x ++ rstrip y) eqn:E.
  - apply app_eq_nil in E. now destruct E.
  - rewrite andb_false_r. cbn [app]. congruence.
Qed.

Lemma NOTICE_head : NOTICE = 65%N :: tl NOTICE.
Proof. reflexivity. Qed.

Lemma lstrip_notice (s : str) : lstrip (NOTICE ++ s) = NOTICE ++ s.
Proof. rewrite NOTICE_head. reflexivity. Qed.

Lemma full_text_stripped (r : option str) :
  strip (full_text_of r) = full_text_of r.
Proof. apply strip_idem. Qed.

Lemma split_field_cases (m1 m2 fallback full_text : str) :
  split_field m1 m2 fallback full_text = fallback \/
  exists a, split_field m1 m2 fallback full_text = strip a.
Proof.
  unfold split_field. destruct (after_first m1 full_text) as [r|]; [|now left].
  destruct (before_first m2 r) as [a|]; [right; now exists a | now left].
Qed.

(** ** The extraction on every response *)

(** X1. On every response the two searches give exactly what two cuts
    give: the text after the first start marker, up to the first end
    marker that follows, stripped; and the fallback when a cut fails. *)
Theorem X1_extract_is_split :
  forall response_text : option str,
    let full_text := full_text_of response_text in
    extract response_text =
    Return {| raw_transcript :=
                split_field RAW_START RAW_END full_text full_text;
              accessible_transcript :=
                split_field NOTES_START NOTES_END
                            (NOTICE ++ full_text) full_text |}.
Proof.
  intros r full_text. unfold full_text.
  rewrite extract_fields. unfold raw_re, notes_re.
  rewrite (field_split RAW_START_marker RAW_END_marker). cbn [obind].
  now rewrite (field_split NOTES_START_marker NOTES_END_marker).
Qed.

(** X2. Blanks around the response do not matter: the response with
    blanks before and after it gives the same result. *)
Theorem X2_outer_blanks_ignored :
  forall w1 t w2 : str,
    forallb isspace w1 = true ->
    forallb isspace w2 = true ->
    extract (Some (w1 ++ t ++ w2)) = extract (Some t).
Proof.
  intros w1 t w2 W1 W2.
  apply forallb_all_space in W1, W2.
  rewrite !extract_fields, !full_text_of_some.
  now rewrite (strip_blank_l _ W1), (strip_blank_r _ W2).
Qed.

Lemma X2_witness :
  extract (Some ((nl ++ py " ") ++ scenario ++ (py " " ++ nl))) =
  extract (Some scenario).
Proof.
  apply X2_outer_blanks_ignored; reflexivity.
Defined.

(** X3. [raw_transcript] always comes back stripped, and
    [accessible_transcript] never starts with a blank; it is stripped too
    unless the response was empty, where it is the bare notice with its
    two closing newlines. *)
Theorem X3_fields_stripped :
  forall response_text : option str,
    exists r,
      extract response_text = Return r /\
      strip (raw_transcript r) = raw_transcript r /\
      lstrip (accessible_transcript r) = accessible_transcript r /\
      (full_text_of response_text <> [] ->
       strip (accessible_transcript r) = accessible_transcript r).
Proof.
  intros rt. eexists. split; [apply extract_split|].
  cbn [raw_transcript accessible_transcript]. split; [|split].
  - destruct (split_field_cases RAW_START RAW_END
                (full_text_of rt) (full_text_of rt)) as [-> | [a ->]].
    + apply full_text_stripped.
    + apply strip_idem.
  - destruct (split_field_cases NOTES_START NOTES_END
                (NOTICE ++ full_text_of rt) (full_text_of rt))
      as [-> | [a ->]].
    + apply lstrip_notice.
    + apply lstrip_rstrip_lstrip.
  - intros NE.
    destruct (split_field_cases NOTES_START NOTES_END
                (NOTICE ++ full_text_of rt) (full_text_of rt))
      as [-> | [a ->]].
    + unfold strip at 1. rewrite lstrip_notice.
      assert (R : rstrip (full_text_of rt) = full_text_of rt)
        by (unfold full_text_of, strip; apply rstrip_idem).
      rewrite rstrip_app_nonblank; rewrite R; [reflexivity | exact NE].
    + apply strip_idem.
Qed.

Lemma X3_witness :
  exists r,
    extract (Some (py " no markers here ")) = Return r /\
    strip (raw_transcript r) = raw_transcript r /\
    lstrip (accessible_transcript r) = accessible_transcript r /\
    strip (accessible_transcript r) = accessible_transcript r.
Proof.
  destruct (X3_fields_stripped (Some (py " no markers here ")))
    as [r [E [H1 [H2 H3]]]].
  exists r. split; [exact E|]. split; [exact H1|]. split; [exact H2|].
  apply H3. vm_compute. discriminate.
Defined.

(** X4. On every response, extracting again from the [raw_transcript]
    just produced gives the same [raw_transcript]: a matched content holds
    no raw end marker, and a fallback text holds no raw pair. *)
Theorem X4_raw_transcript_fixed :
  forall response_text : option str,
    exists r notes,
      extract response_text = Return r /\
      extract (Some (raw_transcript r)) =
      Return {| raw_transcript := raw_transcript r;
                accessible_transcript := notes |}.
Proof.
  intros rt.
  set (ft := full_text_of rt).
  set (x := split_field RAW_START RAW_END ft ft).
  assert (Sx : strip x = x).
  { unfold x. destruct (split_field_cases RAW_START RAW_END ft ft)
      as [-> | [a ->]]; [apply full_text_stripped | apply strip_idem]. }
  assert (Fx : split_field RAW_START RAW_END x x = x).
  { destruct (has_pairb RAW_START RAW_END ft) eqn:P.
    - destruct (@split_field_found _ _ ft _ (proj1 RAW_START_marker)
                  (proj1 RAW_END_marker) P)
        as [u [a [v [_ [_ [Na E]]]]]].
      apply split_field_fallback.
      destruct (has_pairb RAW_START RAW_END x) eqn:Q; [|reflexivity].
      exfalso. apply has_pairb_sound in Q.
      apply has_pair_occurs_end in Q. apply Na.
      unfold x in Q. rewrite E in Q. now apply occurs_strip.
    - assert (E : x = ft) by (unfold x; now apply split_field_fallback).
      rewrite E. exact (split_field_fallback _ _ _ _ P). }
  eexists. eexists. split; [apply extract_split|].
  cbn [raw_transcript]. fold ft. fold x.
  rewrite extract_split, full_text_of_some, Sx, Fx. reflexivity.
Qed.

(** X5. The extraction never invents raw text: [raw_transcript] is
    always a substring of the response, and so is
    [accessible_transcript] whenever the notes pair is present. *)
Theorem X5_fields_are_substrings :
  forall t : str,
    exists r,
      extract (Some t) = Return r /\
      contains (raw_transcript r) t = true /\
      (has_pairb NOTES_START NOTES_END t = true ->
       contains (accessible_transcript r) t = true).
Proof.
  intros t. eexists. split; [apply extract_split|].
  cbn [raw_transcript accessible_transcript]. rewrite full_text_of_some.
  assert (F : forall m1 m2 fb,
             solid m1 -> solid m2 ->
             has_pairb m1 m2 (strip t) = true ->
             occurs (split_field m1 m2 fb (strip t)) t).
  { intros m1 m2 fb S1 S2 P.
    destruct (@split_field_found _ _ fb _ S1 S2 P)
      as [u [a [v [E [_ [_ ->]]]]]].
    apply occurs_strip. rewrite E.
    replace (u ++ m1 ++ a ++ m2 ++ v) with ((u ++ m1) ++ a ++ (m2 ++ v))
      by now rewrite <- !app_assoc.
    apply occurs_inside. apply strip_occurs. }
  split.
  - apply contains_occurs.
    destruct (has_pairb RAW_START RAW_END (strip t)) eqn:P.
    + apply F; [apply RAW_START_marker | apply RAW_END_marker | exact P].
    + rewrite (@split_field_fallback _ _ (strip t) _ P). apply strip_occurs.
  - intros P. apply contains_occurs.
    apply F; [apply NOTES_START_marker | apply NOTES_END_marker |].
    apply has_pairb_complete.
    apply strip_has_pair;
      [apply NOTES_START_marker | apply NOTES_END_marker |].
    now apply has_pairb_sound.
Qed.

Lemma X5_witness :
  exists r,
    extract (Some scenario) = Return r /\
    contains (raw_transcript r) scenario = true /\
    contains (accessible_transcript r) scenario = true.
Proof.
  destruct (X5_fields_are_substrings scenario) as [r [E [H1 H2]]].
  exists r. split; [exact E|]. split; [exact H1|].
  apply H2. vm_compute. reflexivity.
Defined.

(** X6. The two fields fall back separately.  With the notes pair alone,
    [raw_transcript] is the whole stripped response, notes markers
    included, next to the cleanly extracted notes; with the raw pair
    alone, the raw content is extracted next to the notice and the whole
    stripped response. *)
Theorem X6_mixed_outcomes :
  (forall pre b post : str,
      contains NOTES_START pre = false ->
      contains NOTES_END b = false ->
      has_pairb RAW_START RAW_END
                (pre ++ NOTES_START ++ b ++ NOTES_END ++ post) = false ->
      extract (Some (pre ++ NOTES_START ++ b ++ NOTES_END ++ post)) =
      Return {| raw_transcript :=
                  strip (pre ++ NOTES_START ++ b ++ NOTES_END ++ post);
                accessible_transcript := strip b |}) /\
  (forall pre a post : str,
      contains RAW_START pre = false ->
      contains RAW_END a = false ->
      has_pairb NOTES_START NOTES_END
                (pre ++ RAW_START ++ a ++ RAW_END ++ post) = false ->
      extract (Some (pre ++ RAW_START ++ a ++ RAW_END ++ post)) =
      Return {| raw_transcript := strip a;
                accessible_transcript :=
                  NOTICE ++
                  strip (pre ++ RAW_START ++ a ++ RAW_END ++ post) |}).
Proof.
  split.
  - intros pre b post H1 H2 P. apply has_pairb_false in P.
    apply extract_of_fields; [now apply raw_fallback | now apply notes_found].
  - intros pre a post H1 H2 P. apply has_pairb_false in P.
    apply extract_of_fields; [now apply raw_found | now apply notes_fallback].
Qed.

Lemma X6_witness :
  extract (Some ([] ++ NOTES_START ++ py " only notes " ++ NOTES_END ++ [])) =
  Return {| raw_transcript :=
              strip ([] ++ NOTES_START ++ py " only notes " ++ NOTES_END ++ []);
            accessible_transcript := strip (py " only notes ") |}.
Proof.
  apply (proj1 X6_mixed_outcomes); vm_compute; reflexivity.
Defined.

(** ** The calls made to the service *)

Lemma analyze_with_key (File : Type) (G : Gemini File) (audio_path : str)
      (api_key : option str) (log : list call) :
  truthy api_key = true ->
  let key := py_or api_key [] in
  analyze_audio_file G audio_path api_key log =
  match new_client G key with
  | Raise e => (log ++ firstn 1 (run_calls key audio_path), Raise e)
  | Return _ =>
      match files_upload G audio_path with
      | Raise e => (log ++ firstn 3 (run_calls key audio_path), Raise e)
      | Return f =>
          match generate_content G (py "gemini-2.0-flash") prompt f with
          | Raise e => (log ++ run_calls key audio_path, Raise e)
          | Return txt => (log ++ run_calls key audio_path, extract txt)
          end
      end
  end.
Proof.
  intros T key. unfold analyze_audio_file. rewrite T. cbn [negb].
  fold key. unfold bind, perform, lift, run_calls. cbn [firstn].
  destruct (new_client G key); [|reflexivity].
  destruct (files_upload G audio_path) as [f|];
    [|now rewrite <- !app_assoc].
  destruct (generate_content G _ prompt f) as [txt|];
    [|now rewrite <- !app_assoc].
  rewrite <- !app_assoc. cbn [app].
  destruct (extract txt); reflexivity.
Qed.





(** X9. Whatever the key and whatever the service answers, the calls
    made by one run are the first [n] of the four calls of a complete
    run: each call is made at most once, in the fixed order, and nothing
    is tried again. *)
Theorem X9_calls_are_a_prefix :
  forall (File : Type) (G : Gemini File) (audio_path : str)
         (api_key : option str) (log : list call),
    exists n,
      n <= 4 /\
      fst (analyze_audio_file G audio_path api_key log) =
      log ++ firstn n (run_calls (py_or api_key []) audio_path).
Proof.
  intros File G audio_path api_key log.
  destruct (truthy api_key) eqn:T.
  - rewrite (analyze_with_key G audio_path api_key log T). cbv zeta.
    destruct (new_client G _); [|exists 1; split; [lia | reflexivity]].
    destruct (files_upload G audio_path) as [f|];
      [|exists 3; split; [lia | reflexivity]].
    exists 4. split; [lia|].
    destruct (generate_content G _ prompt f); reflexivity.
  - exists 0. split; [lia|].
    unfold analyze_audio_file. rewrite T. cbn [negb fst throw firstn].
    now rewrite app_nil_r.
Qed.


